(** * The FlagEval judge connector (connectors/flageval-connector.py)

    A shallow embedding of [FlagJudgeConnector]: the request it builds, the
    headers it sends and the way [_process_response] decodes the streamed,
    NUL-delimited reply, followed by the properties stated for it.

    Python values are modelled as the interpreter has them: [bytes] are
    lists of bytes, [str] values are lists of Unicode code points, a dict
    with string keys is a finite map.  The library functions the connector
    calls ([bytes.decode], [str.split], [str.strip], [json.loads], the
    aiohttp response stream) are modelled next to it, each under the name
    the source gives it. *)

From Stdlib Require Import ZArith NArith List String Ascii Bool Lia.
From Stdlib.Strings Require Import Byte.
From stdpp Require Import gmap strings list fin_maps.

Local Open Scope N_scope.

(** ** Python data: bytes, str, exceptions *)

Abbreviation bytes := (list byte).
Abbreviation str := (list N).

(** The code point of an ASCII literal's character. *)
Definition str_of (s : string) : str :=
  map Byte.to_N (list_byte_of_string s).

(** A bytes literal of the wire format.  In the literal the apostrophe
    stands for the double quote (code 34), so that
    [wire "{'text':'A'}"] is the twelve bytes of the JSON text. *)
Definition wire_byte (b : byte) : byte :=
  if Byte.to_N b =? 39 then x22 else b.

Definition wire (s : string) : bytes :=
  map wire_byte (list_byte_of_string s).

(** The same literal as a [str]. *)
Definition json_text (s : string) : str := map Byte.to_N (wire s).

Definition NUL : byte := x00.

(** One fragment on the wire: the JSON text followed by the delimiter. *)
Definition fragment (s : string) : bytes := wire s ++ [NUL].

(** The exceptions that the connector and the library calls it makes can
    raise.  [JSONDecodeError] and [UnicodeDecodeError] are subclasses of
    [ValueError] in Python; the model keeps them apart so that a theorem can
    tell which statement raised.  [ClientError n] stands for the aiohttp
    family ([ClientConnectionError], [ClientPayloadError], ...), told apart
    by [n].  [CancelledError] derives from [BaseException] only. *)
Inductive exn : Type :=
  | ValueError
  | UnicodeDecodeError
  | JSONDecodeError
  | RecursionError
  | KeyError (key : str)
  | TypeError
  | AttributeError
  | ClientError (n : N)
  | TimeoutError
  | CancelledError.

(** [isinstance(e, Exception)]: what an [except Exception] clause catches. *)
Definition is_Exception (e : exn) : bool :=
  match e with
  | CancelledError => false
  | _ => true
  end.

(** A computation that returns or raises. *)
Inductive result (A : Type) : Type :=
  | Ok (a : A)
  | Raise (e : exn).
Arguments Ok {A} a.
Arguments Raise {A} e.

#[global] Instance result_ret : MRet result := fun A a => Ok a.
#[global] Instance result_bind : MBind result := fun A B f m =>
  match m with
  | Ok a => f a
  | Raise e => Raise e
  end.
#[global] Instance result_fmap : FMap result := fun A B f m =>
  match m with
  | Ok a => Ok (f a)
  | Raise e => Raise e
  end.

(** ** [bytes.decode()]: strict UTF-8 *)

Definition is_cont (c : N) : bool := (0x80 <=? c) && (c <=? 0xBF).

Definition in_range (lo hi c : N) : bool := (lo <=? c) && (c <=? hi).

(** Allowed range of the second byte of a three- and four-byte sequence:
    overlong forms, surrogates and code points above U+10FFFF are
    rejected. *)
Definition second3 (c0 c1 : N) : bool :=
  if c0 =? 0xE0 then in_range 0xA0 0xBF c1
  else if c0 =? 0xED then in_range 0x80 0x9F c1
  else is_cont c1.

Definition second4 (c0 c1 : N) : bool :=
  if c0 =? 0xF0 then in_range 0x90 0xBF c1
  else if c0 =? 0xF4 then in_range 0x80 0x8F c1
  else is_cont c1.

Fixpoint decode (bs : bytes) : result str :=
  match bs with
  | [] => Ok []
  | b0 :: t0 =>
    let c0 := Byte.to_N b0 in
    if c0 <? 0x80 then cons c0 <$> decode t0
    else if c0 <? 0xC2 then Raise UnicodeDecodeError
    else if c0 <? 0xE0 then
      match t0 with
      | b1 :: t1 =>
        let c1 := Byte.to_N b1 in
        if is_cont c1
        then cons ((c0 - 0xC0) * 64 + (c1 - 0x80)) <$> decode t1
        else Raise UnicodeDecodeError
      | _ => Raise UnicodeDecodeError
      end
    else if c0 <? 0xF0 then
      match t0 with
      | b1 :: b2 :: t2 =>
        let c1 := Byte.to_N b1 in
        let c2 := Byte.to_N b2 in
        if second3 c0 c1 && is_cont c2
        then cons ((c0 - 0xE0) * 4096 + (c1 - 0x80) * 64 + (c2 - 0x80))
               <$> decode t2
        else Raise UnicodeDecodeError
      | _ => Raise UnicodeDecodeError
      end
    else if c0 <? 0xF5 then
      match t0 with
      | b1 :: b2 :: b3 :: t3 =>
        let c1 := Byte.to_N b1 in
        let c2 := Byte.to_N b2 in
        let c3 := Byte.to_N b3 in
        if second4 c0 c1 && is_cont c2 && is_cont c3
        then cons ((c0 - 0xF0) * 262144 + (c1 - 0x80) * 4096
                   + (c2 - 0x80) * 64 + (c3 - 0x80))
               <$> decode t3
        else Raise UnicodeDecodeError
      | _ => Raise UnicodeDecodeError
      end
    else Raise UnicodeDecodeError
  end.

(** ** [str.split(sep, 1)], tuple unpacking, [str.strip()] *)

(** [cut sep s]: the text before and after the first occurrence of the
    one-character separator, if there is one. *)
Fixpoint cut (sep : N) (s : str) : option (str * str) :=
  match s with
  | [] => None
  | c :: s' =>
    if c =? sep then Some ([], s')
    else match cut sep s' with
         | Some (before, after) => Some (c :: before, after)
         | None => None
         end
  end.

(** [s.split(sep, 1)]: at most one split, so a list of one or two parts. *)
Definition split (s : str) (sep : N) : list str :=
  match cut sep s with
  | Some (before, after) => [before; after]
  | None => [s]
  end.

(** [a, b = parts]: two targets need exactly two values. *)
Definition unpack2 (parts : list str) : result (str * str) :=
  match parts with
  | [a; b] => Ok (a, b)
  | _ => Raise ValueError
  end.

(** [str.isspace] on one character: the code points CPython treats as
    whitespace. *)
Definition isspace (c : N) : bool :=
  in_range 0x09 0x0D c || in_range 0x1C 0x20 c || (c =? 0x85) || (c =? 0xA0)
  || (c =? 0x1680) || in_range 0x2000 0x200A c || (c =? 0x2028)
  || (c =? 0x2029) || (c =? 0x202F) || (c =? 0x205F) || (c =? 0x3000).

Fixpoint lstrip (s : str) : str :=
  match s with
  | c :: s' => if isspace c then lstrip s' else s
  | [] => []
  end.

Definition rstrip (s : str) : str := rev (lstrip (rev s)).

Definition strip (s : str) : str := rstrip (lstrip s).

(** ** Python objects and [json.loads] *)

(** The values [json.loads] can return.  A float keeps its literal text;
    the connector never computes with numbers. *)
#[warnings="-register-all"]
Inductive pyval : Type :=
  | PyNone
  | PyBool (b : bool)
  | PyInt (z : Z)
  | PyFloat (lit : str)
  | PyStr (s : str)
  | PyList (l : list pyval)
  | PyDict (d : gmap str pyval).

(** Outcome of a scanning function: a value and the unread rest, a syntax
    error, or recursion budget used up. *)
Inductive scan (A : Type) : Type :=
  | Done (a : A)
  | Syntax
  | Fuel.
Arguments Done {A} a.
Arguments Syntax {A}.
Arguments Fuel {A}.

Definition DQUOTE : N := 34.
Definition BACKSLASH : N := 92.

(** JSON whitespace: space, tab, line feed, carriage return. *)
Definition is_ws (c : N) : bool :=
  (c =? 32) || (c =? 9) || (c =? 10) || (c =? 13).

Fixpoint skip_ws (s : str) : str :=
  match s with
  | c :: s' => if is_ws c then skip_ws s' else s
  | [] => []
  end.

(** [expect c s]: the rest of [s] after its first character [c]. *)
Definition expect (c : N) (s : str) : option str :=
  match s with
  | x :: r => if x =? c then Some r else None
  | [] => None
  end.

(** [s[idx:idx+len(p)] == p], giving the rest after the prefix. *)
Fixpoint after_prefix (p s : str) : option str :=
  match p with
  | [] => Some s
  | a :: p' => match s with
               | x :: s' => if x =? a then after_prefix p' s' else None
               | [] => None
               end
  end.

Definition hexval (c : N) : option N :=
  if in_range 48 57 c then Some (c - 48)
  else if in_range 97 102 c then Some (c - 87)
  else if in_range 65 70 c then Some (c - 55)
  else None.

Definition hex4 (a b c d : N) : option N :=
  x ← hexval a; y ← hexval b; z ← hexval c; w ← hexval d;
  Some (((x * 16 + y) * 16 + z) * 16 + w).

(** The one-character escapes: quote, backslash, slash, b, f, n, r, t. *)
Definition unescape (e : N) : option N :=
  if e =? 34 then Some 34
  else if e =? 92 then Some 92
  else if e =? 47 then Some 47
  else if e =? 98 then Some 8
  else if e =? 102 then Some 12
  else if e =? 110 then Some 10
  else if e =? 114 then Some 13
  else if e =? 116 then Some 9
  else None.

Definition is_high_surrogate (u : N) : bool := in_range 0xD800 0xDBFF u.
Definition is_low_surrogate (u : N) : bool := in_range 0xDC00 0xDFFF u.
Definition join_surrogates (hi lo : N) : N :=
  0x10000 + (hi - 0xD800) * 1024 + (lo - 0xDC00).

Definition push (c : N) (r : option (str * str)) : option (str * str) :=
  match r with
  | Some (v, rest) => Some (c :: v, rest)
  | None => None
  end.

(** [scanstring]: the string body after its opening quote, in strict mode
    (no raw control characters).  A [\u] escape of a high surrogate that is
    directly followed by a [\u] escape of a low surrogate is joined with it. *)
Fixpoint scanstring (s : str) : option (str * str) :=
  match s with
  | [] => None
  | c :: s1 =>
    if c =? DQUOTE then Some ([], s1)
    else if c =? BACKSLASH then
      match s1 with
      | [] => None
      | e :: s2 =>
        if e =? 117 then
          match s2 with
          | h1 :: h2 :: h3 :: h4 :: s6 =>
            match hex4 h1 h2 h3 h4 with
            | None => None
            | Some uni =>
              match s6 with
              | b :: u :: l1 :: l2 :: l3 :: l4 :: s12 =>
                if is_high_surrogate uni && (b =? BACKSLASH) && (u =? 117) then
                  match hex4 l1 l2 l3 l4 with
                  | None => None
                  | Some uni2 =>
                    if is_low_surrogate uni2
                    then push (join_surrogates uni uni2) (scanstring s12)
                    else push uni (scanstring s6)
                  end
                else push uni (scanstring s6)
              | _ => push uni (scanstring s6)
              end
            end
          | _ => None
          end
        else match unescape e with
             | Some ch => push ch (scanstring s2)
             | None => None
             end
      end
    else if c <? 32 then None
    else push c (scanstring s1)
  end.

Definition is_digit (c : N) : bool := in_range 48 57 c.

(** The longest run of decimal digits at the start of [s], and the rest. *)
Fixpoint digits (s : str) : str * str :=
  match s with
  | c :: s' =>
    if is_digit c then let '(ds, r) := digits s' in (c :: ds, r) else ([], s)
  | [] => ([], [])
  end.

Definition int_of_digits (ds : str) : Z :=
  fold_left (fun acc c => (acc * 10 + Z.of_N (c - 48))%Z) ds 0%Z.

(** The number pattern of the decoder, in three groups: an optional minus
    sign and an integer without leading zero; optionally a dot and at least
    one digit; optionally e or E, an optional sign and at least one digit. *)
Definition match_integer (s : str) : option (str * str) :=
  match s with
  | c :: s' =>
    if c =? 48 then Some ([c], s')
    else if in_range 49 57 c then let '(ds, r) := digits s' in Some (c :: ds, r)
    else None
  | [] => None
  end.

Definition match_frac (s : str) : option (str * str) :=
  match s with
  | c :: s' =>
    if c =? 46 then
      match digits s' with
      | ([], _) => None
      | (ds, r) => Some (c :: ds, r)
      end
    else None
  | [] => None
  end.

Definition match_exp (s : str) : option (str * str) :=
  match s with
  | c :: s' =>
    if (c =? 101) || (c =? 69) then
      let '(sign, s'') :=
        match s' with
        | x :: t => if (x =? 45) || (x =? 43) then ([x], t) else ([], s')
        | [] => ([], s')
        end in
      match digits s'' with
      | ([], _) => None
      | (ds, r) => Some (c :: sign ++ ds, r)
      end
    else None
  | [] => None
  end.

Definition match_number (s : str) : option (pyval * str) :=
  let '(neg, s0) :=
    match s with
    | c :: s' => if c =? 45 then (true, s') else (false, s)
    | [] => (false, s)
    end in
  match match_integer s0 with
  | None => None
  | Some (int, r0) =>
    let '(frac, r1) := match match_frac r0 with
                       | Some (f, r) => (f, r)
                       | None => ([], r0)
                       end in
    let '(exp, r2) := match match_exp r1 with
                      | Some (e, r) => (e, r)
                      | None => ([], r1)
                      end in
    match frac ++ exp with
    | [] => Some (PyInt (if neg then - int_of_digits int else int_of_digits int)%Z, r2)
    | _ => Some (PyFloat ((if neg then [45] else []) ++ int ++ frac ++ exp), r2)
    end
  end.

(** The atoms of [scan_once], tried in the decoder's order: null, true,
    false, a number, NaN, Infinity, -Infinity. *)
Definition scan_atom (s : str) : option (pyval * str) :=
  match after_prefix (str_of "null") s with
  | Some r => Some (PyNone, r)
  | None =>
  match after_prefix (str_of "true") s with
  | Some r => Some (PyBool true, r)
  | None =>
  match after_prefix (str_of "false") s with
  | Some r => Some (PyBool false, r)
  | None =>
  match match_number s with
  | Some vr => Some vr
  | None =>
  match after_prefix (str_of "NaN") s with
  | Some r => Some (PyFloat (str_of "NaN"), r)
  | None =>
  match after_prefix (str_of "Infinity") s with
  | Some r => Some (PyFloat (str_of "Infinity"), r)
  | None =>
  match after_prefix (str_of "-Infinity") s with
  | Some r => Some (PyFloat (str_of "-Infinity"), r)
  | None => None
  end end end end end end end.

(** [scan_once] with the array and object loops of [JSONArray] and
    [JSONObject].  Every call spends one unit of [fuel]; [json_loads]
    supplies enough for the whole text ([json_loads_fuel] below).  A key
    that occurs twice keeps its last value, as [dict(pairs)] does.  The
    interpreter's own limits (recursion depth, digits of an int literal)
    are not part of the model. *)
Fixpoint scan_once (fuel : nat) (s : str) : scan (pyval * str) :=
  match fuel with
  | O => Fuel
  | S fuel =>
    match s with
    | [] => Syntax
    | c :: s1 =>
      if c =? DQUOTE then
        match scanstring s1 with
        | Some (v, r) => Done (PyStr v, r)
        | None => Syntax
        end
      else if c =? 123 then
        match expect 125 (skip_ws s1) with
        | Some r => Done (PyDict ∅, r)
        | None => object_members fuel ∅ (skip_ws s1)
        end
      else if c =? 91 then
        match expect 93 (skip_ws s1) with
        | Some r => Done (PyList [], r)
        | None => array_items fuel [] (skip_ws s1)
        end
      else
        match scan_atom s with
        | Some vr => Done vr
        | None => Syntax
        end
    end
  end
with array_items (fuel : nat) (acc : list pyval) (s : str) : scan (pyval * str) :=
  match fuel with
  | O => Fuel
  | S fuel =>
    match scan_once fuel s with
    | Done (v, r) =>
      match skip_ws r with
      | c :: r' =>
        if c =? 93 then Done (PyList (rev (v :: acc)), r')
        else if c =? 44 then array_items fuel (v :: acc) (skip_ws r')
        else Syntax
      | [] => Syntax
      end
    | Syntax => Syntax
    | Fuel => Fuel
    end
  end
with object_members (fuel : nat) (acc : gmap str pyval) (s : str) : scan (pyval * str) :=
  match fuel with
  | O => Fuel
  | S fuel =>
    match expect DQUOTE s with
    | None => Syntax
    | Some s1 =>
      match scanstring s1 with
      | None => Syntax
      | Some (key, r) =>
        match expect 58 (skip_ws r) with
        | None => Syntax
        | Some r1 =>
          match scan_once fuel (skip_ws r1) with
          | Done (v, r2) =>
            match skip_ws r2 with
            | c :: r3 =>
              if c =? 125 then Done (PyDict (<[key := v]> acc), r3)
              else if c =? 44 then object_members fuel (<[key := v]> acc) (skip_ws r3)
              else Syntax
            | [] => Syntax
            end
          | Syntax => Syntax
          | Fuel => Fuel
          end
        end
      end
    end
  end.

(** [json.loads(s)] for a [str] argument: no byte order mark, one value
    between optional whitespace, nothing after it. *)
Definition json_loads (s : str) : result pyval :=
  match s with
  | 0xFEFF :: _ => Raise JSONDecodeError
  | _ =>
    match scan_once (2 * length s + 2) (skip_ws s) with
    | Done (v, r) =>
      match skip_ws r with
      | [] => Ok v
      | _ => Raise JSONDecodeError
      end
    | Syntax => Raise JSONDecodeError
    | Fuel => Raise RecursionError
    end
  end.

(** [data[key]] for a string key. *)
Definition getitem (data : pyval) (key : str) : result pyval :=
  match data with
  | PyDict d =>
    match d !! key with
    | Some v => Ok v
    | None => Raise (KeyError key)
    end
  | _ => Raise TypeError
  end.

(** [v.strip()]: only a [str] has the method. *)
Definition strip_method (v : pyval) : result str :=
  match v with
  | PyStr s => Ok (strip s)
  | _ => Raise AttributeError
  end.

(** ** The aiohttp response and the effects of a call *)

(** The body of a response as [response.content.iter_chunked(1024)] hands
    it out: chunk after chunk until the end of the body, or until reading
    fails ([Broken e]: the connection dropped, a timeout, a cancellation). *)
Inductive stream : Type :=
  | Eof
  | Chunk (chunk : bytes) (rest : stream)
  | Broken (e : exn).

Record ClientResponse : Type := {
  status : Z;
  content : stream;
}.

(** The body delivered as the given chunks, in order, then the end. *)
Definition stream_of (chunks : list bytes) : stream :=
  fold_right Chunk Eof chunks.

(** Chunks as [iter_chunked(n)] yields them: never empty, at most [n] bytes. *)
Fixpoint chunked (n : nat) (content : stream) : bool :=
  match content with
  | Chunk chunk rest =>
    negb (Nat.eqb (length chunk) 0) && Nat.leb (length chunk) n && chunked n rest
  | _ => true
  end.

(** [await response.content.read()]: everything not yet read. *)
Fixpoint read (content : stream) : result bytes :=
  match content with
  | Eof => Ok []
  | Chunk chunk rest => app chunk <$> read rest
  | Broken e => Raise e
  end.

(** [await response.text()]: the unread body, decoded.  The charset is
    UTF-8, which aiohttp uses when the response declares none. *)
Definition text (content : stream) : result str :=
  body ← read content; decode body.

(** What a call does besides returning: the request it sends, the
    fragments it hands to [json.loads], the lines it prints. *)
Inductive event : Type :=
  | Post (url : str) (headers : gmap str str) (json : gmap str pyval)
  | Loads (data : str)
  | Print_predicting (prompt_index : Z) (id : str)
  | Print_exception (exception : exn) (response_text : str)
  | Print_failed (e : exn).

(** A computation with its events in order of occurrence. *)
Definition io (A : Type) : Type := list event * result A.

#[global] Instance io_ret : MRet io := fun A a => ([], Ok a).
#[global] Instance io_bind : MBind io := fun A B f m =>
  match m with
  | (tr, Ok a) => let '(tr', r) := f a in (tr ++ tr', r)
  | (tr, Raise e) => (tr, Raise e)
  end.

Definition emit (ev : event) : io unit := ([ev], Ok tt).
Definition lift {A : Type} (r : result A) : io A := ([], r).

(** [json.loads(data)], leaving a record of its argument. *)
Definition loads (data : str) : io pyval := ([Loads data], json_loads data).

(** [try: body  except Exception as e: handler e]. *)
Definition try_except {A : Type} (body : io A) (handler : exn -> io A) : io A :=
  match body with
  | (tr, Raise e) =>
    if is_Exception e then let '(tr', r) := handler e in (tr ++ tr', r)
    else (tr, Raise e)
  | done => done
  end.

(** ** The connector *)

(** The fields the base class [Connector] gives an instance. *)
Record Connector : Type := {
  endpoint : str;
  token : str;
  id : str;
}.

Record ConnectorPromptArguments : Type := {
  prompt_index : Z;
  prompt : str;
  predicted_results : str;
  target : str;
}.

(** [session.post(url, headers=..., json=...)] as the network answers it:
    a response, whatever its status, or an exception when no response
    arrives.  [aiohttp.ClientSession()] is created without
    [raise_for_status], so a non-2xx answer is a response like any other. *)
Definition network : Type :=
  str -> gmap str str -> gmap str pyval -> result ClientResponse.

Definition _prepare_headers (self : Connector) : gmap str str :=
  {[ str_of "token" := token self;
     str_of "Content-Type" := str_of "application/json" ]}.

(** The body of the loop of [_process_response] for one chunk, on the
    local variables [output] and [buffer]. *)
Definition on_chunk (chunk : bytes) (output buffer : str) : io (str * str) :=
  if bool_decide (chunk = []) then mret (output, buffer)
  else
    piece ← lift (decode chunk);
    let buffer := buffer ++ piece in
    '(data, buffer) ← lift (unpack2 (split buffer 0));
    data ← loads data;
    item ← lift (getitem data (str_of "text"));
    text ← lift (strip_method item);
    mret (text, buffer).

(** [async for chunk in response.content.iter_chunked(1024)]: the loop,
    with the unread part of the body where it stopped and the final values
    of [output] and [buffer]. *)
Fixpoint for_each_chunk (content : stream) (output buffer : str)
  : stream * io (str * str) :=
  match content with
  | Eof => (Eof, mret (output, buffer))
  | Broken e => (Broken e, lift (Raise e))
  | Chunk chunk rest =>
    match on_chunk chunk output buffer with
    | (tr, Ok (output', buffer')) =>
      let '(unread, (tr', r)) := for_each_chunk rest output' buffer' in
      (unread, (tr ++ tr', r))
    | (tr, Raise e) => (rest, (tr, Raise e))
    end
  end.

Definition _process_response (response : ClientResponse) : io str :=
  let '(unread, body) := for_each_chunk (content response) [] [] in
  try_except
    ('(output, _) ← body; mret output)
    (fun exception =>
       response_text ← lift (text unread);
       _ ← emit (Print_exception exception response_text);
       lift (Raise exception)).

Definition new_params (prompt prediction ground_truth : str) : gmap str pyval :=
  {[ str_of "model" := PyStr (str_of "flageval_judgemodel");
     str_of "prompt" := PyStr prompt;
     str_of "pred" := PyStr prediction;
     str_of "gold" := PyStr ground_truth;
     str_of "echo" := PyBool false;
     str_of "stream" := PyBool false ]}.

(** One attempt of [get_response]; the decorators [rate_limited] and
    [perform_retry] of the base class wrap it from outside. *)
Definition get_response (self : Connector) (net : network)
    (prompt prediction ground_truth : str) : io str :=
  let new_params := new_params prompt prediction ground_truth in
  _ ← emit (Post (endpoint self) (_prepare_headers self) new_params);
  response ← lift (net (endpoint self) (_prepare_headers self) new_params);
  _process_response response.

(** The body of [get_prediction].  The call it awaits is the method
    [self.get_response] as the base class decorates it ([rate_limited],
    [perform_retry]); what that call does is given as [self_get_response]. *)
Definition get_prediction (self : Connector)
    (self_get_response : str -> str -> str -> io str)
    (generated_prompt : ConnectorPromptArguments) : io str :=
  try_except
    (_ ← emit (Print_predicting (prompt_index generated_prompt) (id self));
     judge_result ← self_get_response
                      (prompt generated_prompt)
                      (predicted_results generated_prompt)
                      (target generated_prompt);
     mret judge_result)
    (fun e =>
       _ ← emit (Print_failed e);
       lift (Raise e)).

(** ** Reading a trace *)

(** The fragments handed to [json.loads], in order. *)
Definition loaded (tr : list event) : list str :=
  omap (fun ev => match ev with Loads data => Some data | _ => None end) tr.

(** The requests sent, in order. *)
Definition posted (tr : list event) : list (str * gmap str str * gmap str pyval) :=
  omap (fun ev => match ev with Post u h j => Some (u, h, j) | _ => None end) tr.

(** The lines printed by the handler of [_process_response]. *)
Definition logged (tr : list event) : list (exn * str) :=
  omap (fun ev => match ev with Print_exception e t => Some (e, t) | _ => None end) tr.

Definition is_2xx (s : Z) : bool := (200 <=? s)%Z && (s <? 300)%Z.

(** A response with status [s] whose body arrives as the given chunks. *)
Definition response_of (s : Z) (chunks : list bytes) : ClientResponse :=
  {| status := s; content := stream_of chunks |}.

(** ** A network that rewrites the status, and a sample connector *)

(** The network [net] with the status of every response replaced by [s]. *)
Definition with_status (s : Z) (net : network) : network :=
  fun url headers json =>
    (fun response => {| status := s; content := content response |})
      <$> net url headers json.

Definition judge : Connector :=
  {| endpoint := str_of "http://judge.example/api";
     token := str_of "secret";
     id := str_of "flageval" |}.

(** ** Counting delimiters *)

(** The number of NUL bytes of a body, and of NUL characters of a text. *)
Fixpoint count_NUL (body : bytes) : nat :=
  match body with
  | [] => O
  | b :: rest => if Byte.eqb b NUL then S (count_NUL rest) else count_NUL rest
  end.

Fixpoint count_zero (s : str) : nat :=
  match s with
  | [] => O
  | c :: rest => if c =? 0 then S (count_zero rest) else count_zero rest
  end.

(** The number of chunks that are not empty. *)
Definition nonempty_chunks (chunks : list bytes) : nat :=
  length (filter (fun chunk => chunk <> []) chunks).

(** ** The model at work *)

Example decode_ascii : decode (wire "{'te") = Ok (json_text "{'te").
Proof. reflexivity. Qed.

Example decode_euro :
  decode [xe2; x82; xac] = Ok [0x20AC] /\ decode [xe2; x82] = Raise UnicodeDecodeError.
Proof. split; reflexivity. Qed.

Example split_two : split [1; 0; 2; 0; 3] 0 = [[1]; [2; 0; 3]].
Proof. reflexivity. Qed.

Example split_none : unpack2 (split [1; 2] 0) = Raise ValueError.
Proof. reflexivity. Qed.

Example strip_hello : strip (str_of "  hello  ") = str_of "hello".
Proof. reflexivity. Qed.

Example loads_text :
  json_loads (json_text "{'text': [1, -2.5e3, true, null]}")
  = Ok (PyDict {[ str_of "text" := PyList [PyInt 1; PyFloat (str_of "-2.5e3"); PyBool true; PyNone] ]}).
Proof. vm_compute. reflexivity. Qed.

Example loads_bad : json_loads (str_of "{1:2}") = Raise JSONDecodeError
  /\ json_loads (str_of "[1,]") = Raise JSONDecodeError
  /\ json_loads (str_of "01") = Raise JSONDecodeError
  /\ json_loads (str_of " [ ] ") = Ok (PyList [])
  /\ json_loads [34; 92; 117; 100; 56; 51; 100; 92; 117; 100; 101; 48; 48; 34] = Ok (PyStr [0x1F600]).
Proof. vm_compute. repeat split. Qed.

Example process_one :
  _process_response (response_of 200 [fragment "{'text':'A'}"])
  = ([Loads (json_text "{'text':'A'}")], Ok (str_of "A")).
Proof. vm_compute. reflexivity. Qed.

(** ** [json_loads] never runs out of fuel *)

Lemma skip_ws_length s : (length (skip_ws s) <= length s)%nat.
Proof.
  induction s as [|c s IH]; simpl; [done|].
  destruct (is_ws c); simpl; lia.
Qed.

Lemma expect_length c s r : expect c s = Some r -> length s = S (length r).
Proof.
  destruct s as [|x s]; simpl; [done|].
  destruct (x =? c); [|done]. by intros [= ->].
Qed.

Lemma after_prefix_length p s r :
  after_prefix p s = Some r -> (length s = length p + length r)%nat.
Proof.
  revert s. induction p as [|a p IH]; intros s; simpl.
  - by intros [= ->].
  - destruct s as [|x s]; [done|]. destruct (x =? a); [|done].
    intros H. apply IH in H. simpl. lia.
Qed.

Lemma push_Some c res v r :
  push c res = Some (v, r) -> exists v', res = Some (v', r).
Proof.
  destruct res as [[v' r']|]; simpl; [|done].
  intros [= _ ->]. by exists v'.
Qed.

Ltac push_done IH :=
  match goal with
  | H : push _ (scanstring ?s') = Some _ |- _ =>
    apply push_Some in H as [? H]; apply IH in H; simpl in *; lia
  end.

Lemma scanstring_length_le n s v r :
  (length s <= n)%nat -> scanstring s = Some (v, r) -> (length r < length s)%nat.
Proof.
  revert s v r. induction n as [|n IH]; intros s v r Hn H.
  - destruct s; [done | simpl in Hn; lia].
  - destruct s as [|c s1]; [done|]. cbn [scanstring] in H. simpl in Hn.
    destruct (c =? DQUOTE); [injection H as _ <-; simpl; lia|].
    destruct (c =? BACKSLASH).
    + destruct s1 as [|e s2]; [done|]. destruct (e =? 117).
      * destruct s2 as [|h1 [|h2 [|h3 [|h4 s6]]]]; try done.
        destruct (hex4 h1 h2 h3 h4) as [uni|]; [|done].
        destruct s6 as [|b [|u [|l1 [|l2 [|l3 [|l4 s12]]]]]]; try push_done IH.
        destruct (is_high_surrogate uni && (b =? BACKSLASH) && (u =? 117));
          [|push_done IH].
        destruct (hex4 l1 l2 l3 l4) as [uni2|]; [|done].
        destruct (is_low_surrogate uni2); push_done IH.
      * destruct (unescape e); [push_done IH | done].
    + destruct (c <? 32); [done | push_done IH].
Qed.

Lemma scanstring_length s v r :
  scanstring s = Some (v, r) -> (length r < length s)%nat.
Proof. by apply (scanstring_length_le (length s)). Qed.

Lemma digits_length s ds r :
  digits s = (ds, r) -> (length r <= length s)%nat.
Proof.
  revert ds r. induction s as [|c s IH]; intros ds r; simpl.
  - by intros [= _ <-].
  - destruct (is_digit c).
    + destruct (digits s) as [ds' r'] eqn:E. intros [= _ <-].
      specialize (IH _ _ eq_refl). lia.
    + intros [= _ <-]. simpl. lia.
Qed.

Lemma match_integer_length s int r :
  match_integer s = Some (int, r) -> (length r < length s)%nat.
Proof.
  destruct s as [|c s]; simpl; [done|].
  destruct (c =? 48); [intros [= _ <-]; lia|].
  destruct (in_range 49 57 c); [|done].
  destruct (digits s) as [ds r'] eqn:E. intros [= _ <-].
  apply digits_length in E. lia.
Qed.

Lemma match_frac_length s f r :
  match_frac s = Some (f, r) -> (length r < length s)%nat.
Proof.
  destruct s as [|c s]; simpl; [done|].
  destruct (c =? 46); [|done].
  destruct (digits s) as [[|d ds] r'] eqn:E; [done|]. intros [= _ <-].
  apply digits_length in E. lia.
Qed.

Lemma match_exp_length s e r :
  match_exp s = Some (e, r) -> (length r < length s)%nat.
Proof.
  destruct s as [|c s]; simpl; [done|].
  destruct ((c =? 101) || (c =? 69)); [|done].
  destruct (match s with
            | [] => ([], s)
            | x :: t => if (x =? 45) || (x =? 43) then ([x], t) else ([], s)
            end) as [sign s''] eqn:Hsign.
  assert (length s'' <= length s)%nat as Hle.
  { destruct s as [|x t]; [by injection Hsign as _ <-|].
    destruct ((x =? 45) || (x =? 43)); injection Hsign as _ <-; simpl; lia. }
  destruct (digits s'') as [[|d ds] r'] eqn:E; [done|]. intros [= _ <-].
  apply digits_length in E. lia.
Qed.

Lemma match_number_length s v r :
  match_number s = Some (v, r) -> (length r < length s)%nat.
Proof.
  unfold match_number.
  destruct (match s with
            | [] => (false, s)
            | c :: s' => if c =? 45 then (true, s') else (false, s)
            end) as [neg s0] eqn:Hneg.
  assert (length s0 <= length s)%nat as Hle.
  { destruct s as [|c s']; [by injection Hneg as _ <-|].
    destruct (c =? 45); injection Hneg as _ <-; simpl; lia. }
  destruct (match_integer s0) as [[int r0]|] eqn:Hint; [|done].
  apply match_integer_length in Hint.
  destruct (match_frac r0) as [[f rf]|] eqn:Hfrac;
    [apply match_frac_length in Hfrac|];
    (destruct (match_exp _) as [[e re]|] eqn:Hexp;
     [apply match_exp_length in Hexp|]);
    destruct (_ ++ _); intros [= _ <-]; lia.
Qed.

Ltac atom_case lit :=
  let H := fresh "Hprefix" in
  destruct (after_prefix (str_of lit) _) as [?|] eqn:H;
  [intros [= _ <-]; apply after_prefix_length in H; simpl in H; lia|].

Lemma scan_atom_length s v r :
  scan_atom s = Some (v, r) -> (length r < length s)%nat.
Proof.
  unfold scan_atom.
  atom_case "null"%string. atom_case "true"%string. atom_case "false"%string.
  destruct (match_number s) as [[v' r']|] eqn:Hnum.
  { intros [= _ <-]. by apply match_number_length in Hnum. }
  atom_case "NaN"%string. atom_case "Infinity"%string. atom_case "-Infinity"%string.
  done.
Qed.

(** With fuel for twice the length of the text, the scanner ends in a
    value or a syntax error, and a value leaves a shorter rest. *)
Lemma scan_fuel fuel :
  (forall s, (2 * length s + 1 <= fuel)%nat ->
             scan_once fuel s <> Fuel
             /\ forall v r, scan_once fuel s = Done (v, r) -> (length r < length s)%nat)
  /\ (forall acc s, (2 * length s + 2 <= fuel)%nat ->
                    array_items fuel acc s <> Fuel
                    /\ forall v r, array_items fuel acc s = Done (v, r) ->
                                   (length r < length s)%nat)
  /\ (forall acc s, (2 * length s + 2 <= fuel)%nat ->
                    object_members fuel acc s <> Fuel
                    /\ forall v r, object_members fuel acc s = Done (v, r) ->
                                   (length r < length s)%nat).
Proof.
  induction fuel as [|fuel (IHscan & IHarray & IHobject)].
  { repeat split; intros; lia. }
  split; [|split].
  - intros s Hfuel. destruct s as [|c s1]; [by split|].
    cbn [scan_once]. simpl in Hfuel.
    pose proof (skip_ws_length s1) as Hws.
    destruct (c =? DQUOTE).
    { destruct (scanstring s1) as [[v r]|] eqn:Hstr; [|by split].
      apply scanstring_length in Hstr. split; [done|].
      intros ? ? [= _ <-]. simpl. lia. }
    destruct (c =? 123).
    { destruct (expect 125 (skip_ws s1)) as [r|] eqn:Hexp.
      - apply expect_length in Hexp. split; [done|].
        intros ? ? [= _ <-]. simpl. lia.
      - destruct (IHobject ∅ (skip_ws s1)) as [Hne Hlen]; [lia|].
        split; [done|]. intros v r H. apply Hlen in H. simpl. lia. }
    destruct (c =? 91).
    { destruct (expect 93 (skip_ws s1)) as [r|] eqn:Hexp.
      - apply expect_length in Hexp. split; [done|].
        intros ? ? [= _ <-]. simpl. lia.
      - destruct (IHarray [] (skip_ws s1)) as [Hne Hlen]; [lia|].
        split; [done|]. intros v r H. apply Hlen in H. simpl. lia. }
    destruct (scan_atom (c :: s1)) as [[v r]|] eqn:Hatom; [|by split].
    apply scan_atom_length in Hatom. split; [done|]. by intros ? ? [= _ <-].
  - intros acc s Hfuel. cbn [array_items].
    destruct (IHscan s) as [Hne Hlen]; [lia|].
    destruct (scan_once fuel s) as [[v r]| |] eqn:Hscan; [|by split|done].
    specialize (Hlen _ _ eq_refl).
    pose proof (skip_ws_length r) as Hws.
    destruct (skip_ws r) as [|c r'] eqn:Hr; [by split|].
    simpl in Hws.
    destruct (c =? 93); [split; [done|]; intros ? ? [= _ <-]; lia|].
    destruct (c =? 44); [|by split].
    pose proof (skip_ws_length r') as Hws'.
    destruct (IHarray (v :: acc) (skip_ws r')) as [Hne' Hlen']; [lia|].
    split; [done|]. intros v' r'' H. apply Hlen' in H. lia.
  - intros acc s Hfuel. cbn [object_members].
    destruct (expect DQUOTE s) as [s1|] eqn:Hq; [|by split].
    apply expect_length in Hq.
    destruct (scanstring s1) as [[key r]|] eqn:Hkey; [|by split].
    apply scanstring_length in Hkey.
    pose proof (skip_ws_length r) as Hws.
    destruct (expect 58 (skip_ws r)) as [r1|] eqn:Hcolon; [|by split].
    apply expect_length in Hcolon.
    pose proof (skip_ws_length r1) as Hws1.
    destruct (IHscan (skip_ws r1)) as [Hne Hlen]; [lia|].
    destruct (scan_once fuel (skip_ws r1)) as [[v r2]| |] eqn:Hscan; [|by split|done].
    specialize (Hlen _ _ eq_refl).
    pose proof (skip_ws_length r2) as Hws2.
    destruct (skip_ws r2) as [|c r3] eqn:Hr; [by split|].
    simpl in Hws2.
    destruct (c =? 125); [split; [done|]; intros ? ? [= _ <-]; lia|].
    destruct (c =? 44); [|by split].
    pose proof (skip_ws_length r3) as Hws3.
    destruct (IHobject (<[key := v]> acc) (skip_ws r3)) as [Hne' Hlen']; [lia|].
    split; [done|]. intros v' r'' H. apply Hlen' in H. lia.
Qed.

Lemma json_loads_fuel s : json_loads s <> Raise RecursionError.
Proof.
  unfold json_loads.
  pose proof (skip_ws_length s) as Hws.
  destruct (proj1 (scan_fuel (2 * length s + 2)) (skip_ws s)) as [Hne _]; [lia|].
  destruct s as [|c s']; simpl length in *.
  - by destruct (scan_once _ _) as [[v r]| |]; [destruct (skip_ws r)| |].
  - repeat case_match; done.
Qed.

(** ** Decoding a body chunk by chunk *)

Lemma fmap_cons_Ok (c : N) (res : result str) x :
  cons c <$> res = Ok x -> exists x', res = Ok x' /\ x = c :: x'.
Proof. destruct res as [x'|e]; simpl; [|done]. intros [= <-]. by exists x'. Qed.

Ltac decode_tail IH :=
  match goal with
  | H : cons _ <$> decode ?t = Ok _ |- _ =>
    apply fmap_cons_Ok in H as (? & H & ->);
    rewrite (IH t _ _ _ ltac:(simpl in *; lia) H ltac:(eassumption)); done
  end.

Lemma decode_app_le n a b x y :
  (length a <= n)%nat -> decode a = Ok x -> decode b = Ok y ->
  decode (a ++ b) = Ok (x ++ y).
Proof.
  revert a b x y. induction n as [|n IH]; intros a b x y Hn Ha Hb.
  - destruct a; [|simpl in Hn; lia]. by injection Ha as <-.
  - destruct a as [|b0 t0]; [by injection Ha as <-|].
    cbn [decode app] in *. simpl in Hn.
    destruct (Byte.to_N b0 <? 128); [decode_tail IH|].
    destruct (Byte.to_N b0 <? 194); [done|].
    destruct (Byte.to_N b0 <? 224).
    { destruct t0 as [|b1 t1]; [done|]. cbn [app].
      destruct (is_cont _); [decode_tail IH | done]. }
    destruct (Byte.to_N b0 <? 240).
    { destruct t0 as [|b1 [|b2 t2]]; try done. cbn [app].
      destruct (_ && _); [decode_tail IH | done]. }
    destruct (Byte.to_N b0 <? 245); [|done].
    destruct t0 as [|b1 [|b2 [|b3 t3]]]; try done. cbn [app].
    destruct (_ && _); [decode_tail IH | done].
Qed.

Lemma decode_app a b x y :
  decode a = Ok x -> decode b = Ok y -> decode (a ++ b) = Ok (x ++ y).
Proof. by apply (decode_app_le (length a)). Qed.

Lemma decode_concat chunks pieces :
  Forall2 (fun chunk piece => decode chunk = Ok piece) chunks pieces ->
  decode (concat chunks) = Ok (concat pieces).
Proof.
  induction 1 as [|chunk piece chunks pieces H _ IH]; simpl; [done|].
  by apply decode_app.
Qed.

(** ** What [strip] removes *)

(** What [strip] removes is whitespace, and what it leaves neither starts
    nor ends with whitespace. *)
Lemma lstrip_spec s :
  exists l, s = l ++ lstrip s /\ Forall (fun c => isspace c = true) l
            /\ (forall c, head (lstrip s) = Some c -> isspace c = false).
Proof.
  induction s as [|c s (l & Hs & Hl & Hhead)]; simpl.
  - exists []. by repeat split.
  - destruct (isspace c) eqn:Hc.
    + exists (c :: l). repeat split; [by rewrite Hs at 1 | by constructor | done].
    + exists []. repeat split; [done|]. simpl. by intros ? [= <-].
Qed.

Lemma last_rev (s : str) : last (rev s) = head s.
Proof. destruct s as [|c s]; simpl; [done | apply last_snoc]. Qed.

Lemma strip_spec s :
  exists l r,
    s = l ++ strip s ++ r
    /\ Forall (fun c => isspace c = true) l
    /\ Forall (fun c => isspace c = true) r
    /\ (forall c, head (strip s) = Some c -> isspace c = false)
    /\ (forall c, last (strip s) = Some c -> isspace c = false).
Proof.
  destruct (lstrip_spec s) as (l & Hs & Hl & Hhead).
  destruct (lstrip_spec (rev (lstrip s))) as (r & Hr & Hrs & Hlast).
  unfold strip, rstrip. set (m := lstrip (rev (lstrip s))) in *.
  assert (Hmid : lstrip s = rev m ++ rev r).
  { by rewrite <- rev_app_distr, <- Hr, rev_involutive. }
  exists l, (rev r). repeat split.
  - by rewrite <- Hmid.
  - done.
  - apply Forall_forall. intros c Hc. rewrite Forall_forall in Hrs.
    apply Hrs. by apply list_elem_of_In, in_rev, list_elem_of_In.
  - intros c Hc. apply Hhead. rewrite Hmid.
    destruct (rev m) as [|x xs]; [done|]. by simpl in *.
  - intros c Hc. apply Hlast. by rewrite <- last_rev.
Qed.

(** ** How one chunk is processed *)

Lemma cut_app sep before after :
  sep ∉ before -> cut sep (before ++ sep :: after) = Some (before, after).
Proof.
  induction before as [|c before IH]; simpl; intros Hnot.
  - by rewrite N.eqb_refl.
  - destruct (N.eqb_spec c sep) as [->|Hne].
    + destruct Hnot. left.
    + rewrite IH; [done|]. intros ?; apply Hnot; by right.
Qed.

Lemma cut_spec sep s :
  match cut sep s with
  | Some (before, after) => s = before ++ sep :: after /\ sep ∉ before
  | None => sep ∉ s
  end.
Proof.
  induction s as [|c s IH]; simpl.
  - apply not_elem_of_nil.
  - destruct (N.eqb_spec c sep) as [->|Hne].
    + split; [done | apply not_elem_of_nil].
    + destruct (cut sep s) as [[before after]|].
      * destruct IH as [-> Hnot]. split; [done|].
        intros Hin. apply elem_of_cons in Hin as [?|?]; [congruence | done].
      * intros Hin. apply elem_of_cons in Hin as [?|?]; [congruence | done].
Qed.

Lemma cut_None sep s : cut sep s = None <-> sep ∉ s.
Proof.
  split.
  - intros H. pose proof (cut_spec sep s) as Hs. by rewrite H in Hs.
  - intros Hnot. pose proof (cut_spec sep s) as Hs.
    destruct (cut sep s) as [[before after]|]; [|done].
    destruct Hs as [-> _]. destruct Hnot.
    apply elem_of_app. right. left.
Qed.

Lemma cut_Some sep s before after :
  cut sep s = Some (before, after) <-> s = before ++ sep :: after /\ sep ∉ before.
Proof.
  split.
  - intros H. pose proof (cut_spec sep s) as Hs. by rewrite H in Hs.
  - intros [-> Hnot]. by apply cut_app.
Qed.

Lemma on_chunk_empty output buffer :
  on_chunk [] output buffer = ([], Ok (output, buffer)).
Proof. reflexivity. Qed.

Lemma on_chunk_undecodable chunk output buffer e :
  chunk <> [] -> decode chunk = Raise e ->
  on_chunk chunk output buffer = ([], Raise e).
Proof.
  intros Hne Hdec. unfold on_chunk.
  rewrite bool_decide_eq_false_2 by done. by rewrite Hdec.
Qed.

Lemma on_chunk_no_nul chunk output buffer piece :
  chunk <> [] -> decode chunk = Ok piece -> cut 0 (buffer ++ piece) = None ->
  on_chunk chunk output buffer = ([], Raise ValueError).
Proof.
  intros Hne Hdec Hcut. unfold on_chunk, split.
  rewrite bool_decide_eq_false_2 by done. by rewrite Hdec; simpl; rewrite Hcut.
Qed.

Lemma on_chunk_fragment chunk output buffer piece before after :
  chunk <> [] -> decode chunk = Ok piece ->
  cut 0 (buffer ++ piece) = Some (before, after) ->
  on_chunk chunk output buffer
  = ([Loads before],
     (fun t => (t, after))
       <$> (data ← json_loads before;
            item ← getitem data (str_of "text");
            strip_method item)).
Proof.
  intros Hne Hdec Hcut. unfold on_chunk, split.
  rewrite bool_decide_eq_false_2 by done. rewrite Hdec; simpl; rewrite Hcut; simpl.
  unfold loads. destruct (json_loads before) as [data|e]; simpl; [|done].
  destruct (getitem data _) as [item|e]; simpl; [|done].
  by destruct (strip_method item).
Qed.

(** A chunk that is processed without an exception is either empty, or
    yields exactly one fragment: the buffer up to its first NUL, which
    parses to a dict whose [text] is a string. *)
Lemma on_chunk_Ok chunk output buffer tr output' buffer' :
  on_chunk chunk output buffer = (tr, Ok (output', buffer')) ->
  (chunk = [] /\ tr = [] /\ output' = output /\ buffer' = buffer)
  \/ (chunk <> [] /\
      exists piece before d t,
        decode chunk = Ok piece /\
        cut 0 (buffer ++ piece) = Some (before, buffer') /\
        tr = [Loads before] /\
        json_loads before = Ok (PyDict d) /\
        d !! str_of "text" = Some (PyStr t) /\
        output' = strip t).
Proof.
  destruct (decide (chunk = [])) as [->|Hne].
  - rewrite on_chunk_empty. intros [= <- <- <-]. by left.
  - intros H. right. split; [done|].
    destruct (decode chunk) as [piece|e] eqn:Hdec.
    2:{ rewrite (on_chunk_undecodable _ _ _ e) in H by done. discriminate. }
    destruct (cut 0 (buffer ++ piece)) as [[before after]|] eqn:Hcut.
    2:{ rewrite (on_chunk_no_nul _ _ _ piece) in H by done. discriminate. }
    rewrite (on_chunk_fragment _ _ _ piece before after) in H by done.
    injection H as <- H.
    destruct (json_loads before) as [data|e] eqn:Hload; simpl in H; [|done].
    destruct data as [| | | | |l|d]; simpl in H; try done.
    destruct (d !! str_of "text") as [item|] eqn:Hitem; simpl in H; [|done].
    destruct item as [| | | |t| |]; simpl in H; try done.
    injection H as <- <-.
    by exists piece, before, d, t.
Qed.

Lemma on_chunk_trace chunk output buffer tr r :
  on_chunk chunk output buffer = (tr, r) ->
  tr = [] \/ exists before, tr = [Loads before].
Proof.
  destruct (decide (chunk = [])) as [->|Hne].
  - rewrite on_chunk_empty. intros [= <- _]. by left.
  - destruct (decode chunk) as [piece|e] eqn:Hdec.
    2:{ rewrite (on_chunk_undecodable _ _ _ e) by done. intros [= <- _]. by left. }
    destruct (cut 0 (buffer ++ piece)) as [[before after]|] eqn:Hcut.
    2:{ rewrite (on_chunk_no_nul _ _ _ piece) by done. intros [= <- _]. by left. }
    rewrite (on_chunk_fragment _ _ _ piece before after) by done.
    intros [= <- _]. right. by exists before.
Qed.

(** ** The loop over the chunks *)

Lemma loaded_app tr tr' : loaded (tr ++ tr') = loaded tr ++ loaded tr'.
Proof. apply omap_app. Qed.

Lemma posted_app tr tr' : posted (tr ++ tr') = posted tr ++ posted tr'.
Proof. apply omap_app. Qed.

Lemma logged_app tr tr' : logged (tr ++ tr') = logged tr ++ logged tr'.
Proof. apply omap_app. Qed.

(** The loop run over [pre] and then over [tail] is the loop run over
    [pre], continued on [tail] from the variables it leaves. *)
Lemma for_each_chunk_prefix pre tail output buffer tr output' buffer' :
  for_each_chunk (stream_of pre) output buffer = (Eof, (tr, Ok (output', buffer'))) ->
  for_each_chunk (foldr Chunk tail pre) output buffer
  = (let '(unread, (tr', r)) := for_each_chunk tail output' buffer' in
     (unread, (tr ++ tr', r))).
Proof.
  revert output buffer tr. induction pre as [|chunk pre IH]; intros output buffer tr; simpl.
  - intros [= <- <- <-]. by destruct (for_each_chunk tail output buffer) as [? [? ?]].
  - destruct (on_chunk chunk output buffer) as [tr1 [[o1 b1]|e]]; [|done].
    destruct (for_each_chunk (stream_of pre) o1 b1) as [u [tr2 r2]] eqn:Hpre.
    intros [= -> <- ->].
    rewrite (IH _ _ _ Hpre).
    destruct (for_each_chunk tail output' buffer') as [u' [tr' r']].
    by rewrite app_assoc.
Qed.

(** The loop emits nothing but [Loads] events. *)
Lemma for_each_chunk_posted content output buffer unread tr r :
  for_each_chunk content output buffer = (unread, (tr, r)) -> posted tr = [].
Proof.
  revert output buffer tr unread r.
  induction content as [|chunk rest IH|e]; intros output buffer tr unread r; simpl.
  - by intros [= _ <- _].
  - destruct (on_chunk chunk output buffer) as [tr1 [[o1 b1]|e]] eqn:Hc.
    + destruct (for_each_chunk rest o1 b1) as [u [tr2 r2]] eqn:Hrest.
      intros [= _ <- _]. rewrite posted_app, (IH _ _ _ _ _ Hrest).
      by destruct (on_chunk_trace _ _ _ _ _ Hc) as [->|[? ->]].
    + intros [= _ <- _]. by destruct (on_chunk_trace _ _ _ _ _ Hc) as [->|[? ->]].
  - by intros [= _ <- _].
Qed.

Lemma for_each_chunk_logged content output buffer unread tr r :
  for_each_chunk content output buffer = (unread, (tr, r)) -> logged tr = [].
Proof.
  revert output buffer tr unread r.
  induction content as [|chunk rest IH|e]; intros output buffer tr unread r; simpl.
  - by intros [= _ <- _].
  - destruct (on_chunk chunk output buffer) as [tr1 [[o1 b1]|e]] eqn:Hc.
    + destruct (for_each_chunk rest o1 b1) as [u [tr2 r2]] eqn:Hrest.
      intros [= _ <- _]. rewrite logged_app, (IH _ _ _ _ _ Hrest).
      by destruct (on_chunk_trace _ _ _ _ _ Hc) as [->|[? ->]].
    + intros [= _ <- _]. by destruct (on_chunk_trace _ _ _ _ _ Hc) as [->|[? ->]].
  - by intros [= _ <- _].
Qed.

(** When the loop ends normally, the value of [output] is the stripped
    [text] of the fragment parsed last, or still the initial value. *)
Lemma for_each_chunk_last content output buffer unread tr output' buffer' :
  for_each_chunk content output buffer = (unread, (tr, Ok (output', buffer'))) ->
  match last (loaded tr) with
  | Some data =>
    exists d t, json_loads data = Ok (PyDict d) /\
                d !! str_of "text" = Some (PyStr t) /\ output' = strip t
  | None => output' = output
  end.
Proof.
  revert output buffer tr unread.
  induction content as [|chunk rest IH|e]; intros output buffer tr unread; simpl.
  - by intros [= _ <- <- _].
  - destruct (on_chunk chunk output buffer) as [tr1 [[o1 b1]|e]] eqn:Hc; [|done].
    destruct (for_each_chunk rest o1 b1) as [u [tr2 r2]] eqn:Hrest.
    intros [= _ <- ->]. apply IH in Hrest.
    rewrite loaded_app, last_app.
    destruct (last (loaded tr2)) as [data|]; [done|]. subst output'.
    apply on_chunk_Ok in Hc as [(_ & -> & -> & _)|(_ & piece & before & d & t & H)].
    + done.
    + destruct H as (_ & _ & -> & Hload & Htext & ->). simpl. by exists d, t.
  - done.
Qed.

(** When the loop ends normally over a body that came as [chunks]: the
    body was read to its end, one fragment was parsed per nonempty chunk,
    and the decoded text is these fragments, each followed by NUL, followed
    by what is left in [buffer]. *)
Lemma for_each_chunk_accounting chunks output buffer unread tr output' buffer' :
  for_each_chunk (stream_of chunks) output buffer
  = (unread, (tr, Ok (output', buffer'))) ->
  unread = Eof
  /\ length (loaded tr) = length (filter (fun chunk => chunk <> []) chunks)
  /\ exists pieces,
       Forall2 (fun chunk piece => decode chunk = Ok piece) chunks pieces
       /\ buffer ++ concat pieces
          = foldr (fun data rest => data ++ 0 :: rest) buffer' (loaded tr).
Proof.
  revert output buffer tr.
  induction chunks as [|chunk chunks IH]; intros output buffer tr; simpl.
  - intros [= <- <- <- <-]. repeat split; [].
    exists []. split; [constructor | by rewrite app_nil_r].
  - destruct (on_chunk chunk output buffer) as [tr1 [[o1 b1]|e]] eqn:Hc; [|done].
    destruct (for_each_chunk (stream_of chunks) o1 b1) as [u [tr2 r2]] eqn:Hrest.
    intros [= -> <- ->].
    apply IH in Hrest as (-> & Hlen & pieces & Hdec & Htext).
    split; [done|]. rewrite loaded_app, length_app.
    apply on_chunk_Ok in Hc as [(-> & -> & _ & ->)|(Hne & piece & before & d & t & H)].
    + split; [by rewrite filter_cons_False by (intros H; by apply H)|].
      exists ([] :: pieces). split; [by constructor|done].
    + destruct H as (Hpiece & Hcut & -> & _).
      split; [by rewrite filter_cons_True by done; simpl; rewrite Hlen|].
      exists (piece :: pieces). split; [by constructor|].
      apply cut_Some in Hcut as [Hcut _]. simpl.
      by rewrite app_assoc, Hcut, <- Htext, <- app_assoc.
Qed.

(** ** The three ways [_process_response] ends *)

Lemma process_response_returns response unread tr output buffer :
  for_each_chunk (content response) [] [] = (unread, (tr, Ok (output, buffer))) ->
  _process_response response = (tr, Ok output).
Proof.
  intros H. unfold _process_response. rewrite H. simpl. by rewrite app_nil_r.
Qed.

Lemma process_response_caught response unread tr e :
  for_each_chunk (content response) [] [] = (unread, (tr, Raise e)) ->
  is_Exception e = true ->
  _process_response response
  = match text unread with
    | Ok response_text => (tr ++ [Print_exception e response_text], Raise e)
    | Raise e' => (tr, Raise e')
    end.
Proof.
  intros H He. unfold _process_response. rewrite H. simpl. rewrite He.
  destruct (text unread); simpl; [done | by rewrite app_nil_r].
Qed.

Lemma process_response_uncaught response unread tr e :
  for_each_chunk (content response) [] [] = (unread, (tr, Raise e)) ->
  is_Exception e = false ->
  _process_response response = (tr, Raise e).
Proof.
  intros H He. unfold _process_response. rewrite H. simpl. by rewrite He.
Qed.

Lemma process_response_posted response tr r :
  _process_response response = (tr, r) -> posted tr = [].
Proof.
  destruct (for_each_chunk (content response) [] []) as [unread [tr0 [[o b]|e]]] eqn:H.
  - rewrite (process_response_returns _ _ _ _ _ H). intros [= <- _].
    by apply for_each_chunk_posted in H.
  - apply for_each_chunk_posted in H as Hp. destruct (is_Exception e) eqn:He.
    + rewrite (process_response_caught _ _ _ _ H He).
      destruct (text unread); intros [= <- _]; [|done].
      by rewrite posted_app, Hp.
    + rewrite (process_response_uncaught _ _ _ _ H He). by intros [= <- _].
Qed.

(** ** The request that is sent *)

Lemma get_response_posted self net prompt prediction ground_truth :
  posted (get_response self net prompt prediction ground_truth).1
  = [(endpoint self, _prepare_headers self,
      new_params prompt prediction ground_truth)].
Proof.
  unfold get_response. simpl.
  destruct (net _ _ _) as [response|e]; simpl; [|done].
  destruct (_process_response response) as [tr r] eqn:H. simpl.
  by rewrite (process_response_posted _ _ _ H).
Qed.

(** A fragment that is taken from the buffer and does not parse to a dict
    with a string [text] makes the call fail, whatever was parsed before. *)
Lemma unusable_fragment_raises s pre chunk rest tr output buffer piece before after e :
  for_each_chunk (stream_of pre) [] [] = (Eof, (tr, Ok (output, buffer))) ->
  chunk <> [] -> decode chunk = Ok piece ->
  cut 0 (buffer ++ piece) = Some (before, after) ->
  (data ← json_loads before; item ← getitem data (str_of "text"); strip_method item)
  = Raise e ->
  exists tr' e',
    _process_response {| status := s; content := foldr Chunk (Chunk chunk rest) pre |}
    = (tr', Raise e').
Proof.
  intros Hpre Hne Hdec Hcut Hbad.
  assert (Hloop : for_each_chunk (foldr Chunk (Chunk chunk rest) pre) [] []
                  = (rest, (tr ++ [Loads before], Raise e))).
  { rewrite (for_each_chunk_prefix _ _ _ _ _ _ _ Hpre). simpl.
    rewrite (on_chunk_fragment _ _ _ piece before after) by done.
    by rewrite Hbad. }
  destruct (is_Exception e) eqn:He.
  - rewrite (process_response_caught _ rest _ e) by done.
    destruct (text rest); by eexists _, _.
  - rewrite (process_response_uncaught _ rest _ e) by done. by eexists _, _.
Qed.

(** ** Claims about the reply *)

(** C1.  The claim: whatever the chunking of the body made of the
    fragments {'text':'A'} and {'text':'B'}, each followed by NUL, the call
    returns B.  The code splits the buffer once per chunk.  When the body
    arrives as one chunk only the first fragment is parsed and the call
    returns A; when a chunk ends inside a fragment the unpacking of the
    split raises [ValueError]; the call returns B when each fragment
    arrives as a chunk of its own. *)
Theorem C1_last_fragment_depends_on_chunking :
  let body := fragment "{'text':'A'}" ++ fragment "{'text':'B'}" in
  (chunked 1024 (stream_of [body]) = true /\
   _process_response (response_of 200 [body])
   = ([Loads (json_text "{'text':'A'}")], Ok (str_of "A")))
  /\ (take 5 body ++ drop 5 body = body /\
      _process_response (response_of 200 [take 5 body; drop 5 body])
      = ([Print_exception ValueError (map Byte.to_N (drop 5 body))], Raise ValueError))
  /\ _process_response
       (response_of 200 [fragment "{'text':'A'}"; fragment "{'text':'B'}"])
     = ([Loads (json_text "{'text':'A'}"); Loads (json_text "{'text':'B'}")],
        Ok (str_of "B")).
Proof. vm_compute. repeat split. Qed.

(** C2.  The claim: whatever the chunking of the body made of the fragment
    {'text':'A'}, a NUL and the unfinished tail {'te, the call returns A and
    the tail takes no part in the result or in an error.  The code returns
    A when the whole body is one chunk.  When the tail
    arrives as a chunk of its own, that chunk leaves the buffer without a
    NUL, the unpacking of the split raises [ValueError] and the call fails
    although the first fragment had been parsed. *)
Theorem C2_incomplete_tail_in_its_own_chunk :
  (chunked 1024 (stream_of [fragment "{'text':'A'}"; wire "{'te"]) = true /\
   _process_response (response_of 200 [fragment "{'text':'A'}"; wire "{'te"])
   = ([Loads (json_text "{'text':'A'}"); Print_exception ValueError []],
      Raise ValueError))
  /\ _process_response (response_of 200 [fragment "{'text':'A'}" ++ wire "{'te"])
     = ([Loads (json_text "{'text':'A'}")], Ok (str_of "A")).
Proof. vm_compute. repeat split. Qed.

(** ** Claims about failures *)

(** C3, as stated, fails: a response with status 500 whose body is the
    fragment {'text':'A'} is not turned into a transport error; its body is
    handed to [json.loads] and the call returns A. *)
Lemma C3_counterexample :
  let response := response_of 500 [fragment "{'text':'A'}"] in
  is_2xx (status response) = false
  /\ get_response judge (fun _ _ _ => Ok response) (str_of "q") (str_of "p") (str_of "g")
     = ([Post (endpoint judge) (_prepare_headers judge)
              (new_params (str_of "q") (str_of "p") (str_of "g"));
         Loads (json_text "{'text':'A'}")],
        Ok (str_of "A")).
Proof. split; [reflexivity|]. vm_compute. reflexivity. Qed.

(** C3, amended.  The call never looks at the status of the response: with
    any status, 2xx or not, the body is processed in the same way and the
    call has the same events and the same outcome.  When the POST itself
    raises, the call fails with the exception of the POST and no byte is
    parsed. *)
Theorem C3_status_is_not_inspected self net prompt prediction ground_truth :
  (forall s,
      get_response self (with_status s net) prompt prediction ground_truth
      = get_response self net prompt prediction ground_truth)
  /\ (forall e,
         net (endpoint self) (_prepare_headers self)
             (new_params prompt prediction ground_truth) = Raise e ->
         get_response self net prompt prediction ground_truth
         = ([Post (endpoint self) (_prepare_headers self)
                  (new_params prompt prediction ground_truth)],
            Raise e)).
Proof.
  split.
  - intros s. unfold get_response, with_status. simpl.
    by destruct (net _ _ _) as [response|e].
  - intros e H. unfold get_response. simpl. by rewrite H.
Qed.

Lemma C3_status_is_not_inspected_witness :
  get_response judge (fun _ _ _ => Raise (ClientError 1)) [] [] []
  = ([Post (endpoint judge) (_prepare_headers judge) (new_params [] [] [])],
     Raise (ClientError 1)).
Proof.
  apply (proj2 (C3_status_is_not_inspected judge
                  (fun _ _ _ => Raise (ClientError 1)) [] [] [])).
  reflexivity.
Defined.

(** C4.  The claim: a malformed fragment before some NUL makes the call
    fail, also after earlier fragments were parsed.  The code parses one
    fragment per chunk: a malformed fragment that shares its chunk with an
    earlier fragment stays in the buffer, is never parsed, and the call
    returns the earlier text.  In a chunk of its own the same fragment makes
    the call fail with the decoder's error, or with [KeyError] when the
    [text] field is missing, and no text is returned. *)
Theorem C4_malformed_fragment_left_in_buffer :
  (chunked 1024 (stream_of [fragment "{'text':'A'}" ++ fragment "{oops"]) = true /\
   _process_response (response_of 200 [fragment "{'text':'A'}" ++ fragment "{oops"])
   = ([Loads (json_text "{'text':'A'}")], Ok (str_of "A")))
  /\ _process_response (response_of 200 [fragment "{'text':'A'}"; fragment "{oops"])
     = ([Loads (json_text "{'text':'A'}"); Loads (json_text "{oops");
         Print_exception JSONDecodeError []],
        Raise JSONDecodeError)
  /\ _process_response (response_of 200 [fragment "{'text':'A'}"; fragment "{'score':1}"])
     = ([Loads (json_text "{'text':'A'}"); Loads (json_text "{'score':1}");
         Print_exception (KeyError (str_of "text")) []],
        Raise (KeyError (str_of "text"))).
Proof. vm_compute. repeat split. Qed.

(** C5.  The claim: a body that ends before any fragment was parsed gives
    the empty string and no error.  That holds for the empty body, and for
    a stream of empty chunks.  A body with bytes but no NUL makes the
    unpacking of the split raise [ValueError] on its first chunk. *)
Theorem C5_body_without_delimiter :
  (chunked 1024 (stream_of [wire "{'te"]) = true /\
   _process_response (response_of 200 [wire "{'te"])
   = ([Print_exception ValueError []], Raise ValueError))
  /\ _process_response (response_of 200 []) = ([], Ok [])
  /\ forall s chunks,
       Forall (fun chunk => chunk = []) chunks ->
       _process_response (response_of s chunks) = ([], Ok []).
Proof.
  split; [|split]; [by vm_compute | by vm_compute |].
  intros s chunks Hall.
  apply (process_response_returns _ Eof _ _ []). simpl.
  induction Hall as [|chunk chunks -> _ IH]; simpl; [done | by rewrite IH].
Qed.

Lemma C5_body_without_delimiter_witness :
  _process_response (response_of 200 [[]; []]) = ([], Ok []).
Proof.
  apply (proj2 (proj2 C5_body_without_delimiter) 200%Z [[]; []]).
  repeat constructor.
Defined.

(** ** Claims about the request and the returned text *)




(** C8.  Every request that [get_response] sends is one POST to the
    configured endpoint, and its headers are exactly [token], bound to the
    configured token, and [Content-Type], bound to application/json. *)
Theorem C8_request_headers self net prompt prediction ground_truth :
  exists headers json,
    posted (get_response self net prompt prediction ground_truth).1
    = [(endpoint self, headers, json)]
    /\ dom headers = {[ str_of "token"; str_of "Content-Type" ]}
    /\ headers !! str_of "token" = Some (token self)
    /\ headers !! str_of "Content-Type" = Some (str_of "application/json").
Proof.
  eexists _, _.
  split; [apply get_response_posted|].
  split; [|by split].
  unfold _prepare_headers. rewrite dom_insert_L, dom_singleton_L. set_solver.
Qed.

(** ** Claims about the handler and the loop *)

(** C9, as stated, fails: the body yields the chunk abc and then the
    connection breaks.  The chunk has no NUL, so the loop raises
    [ValueError]; the handler's [response.text()] then raises the
    connection error, nothing is printed, and the connection error, not
    the [ValueError], reaches the caller. *)
Lemma C9_counterexample :
  let response :=
    {| status := 200; content := Chunk (wire "abc") (Broken (ClientError 1)) |} in
  for_each_chunk (content response) [] []
  = (Broken (ClientError 1), ([], Raise ValueError))
  /\ is_Exception ValueError = true
  /\ text (Broken (ClientError 1)) = Raise (ClientError 1)
  /\ _process_response response = ([], Raise (ClientError 1))
  /\ ClientError 1 <> ValueError.
Proof. repeat split; discriminate. Qed.

(** C9, amended.  On an exception raised while reading or decoding the
    body, the handler reads the response text that is left.  When that
    read succeeds, the exception is printed with the text and the original
    exception reaches the caller.  A failure of the diagnostic read is not
    tolerated: nothing is printed and the exception of the diagnostic read
    is what reaches the caller. *)
Theorem C9_diagnostic_read response unread tr e :
  for_each_chunk (content response) [] [] = (unread, (tr, Raise e)) ->
  is_Exception e = true ->
  (forall response_text,
      text unread = Ok response_text ->
      _process_response response
      = (tr ++ [Print_exception e response_text], Raise e))
  /\ (forall e',
         text unread = Raise e' ->
         _process_response response = (tr, Raise e') /\ logged tr = []).
Proof.
  intros Hrun He. rewrite (process_response_caught _ _ _ _ Hrun He).
  split.
  - by intros response_text ->.
  - intros e' ->. split; [done|]. by apply for_each_chunk_logged in Hrun.
Qed.

Lemma C9_diagnostic_read_witness :
  _process_response {| status := 200; content := Chunk (wire "abc") Eof |}
  = ([] ++ [Print_exception ValueError []], Raise ValueError).
Proof.
  apply (proj1 (C9_diagnostic_read
                  {| status := 200; content := Chunk (wire "abc") Eof |}
                  Eof [] ValueError eq_refl eq_refl) []).
  reflexivity.
Defined.

(** C10.  Per nonempty chunk [_process_response] takes exactly the part of
    the accumulated buffer before its first NUL as one fragment and keeps
    the part after it.  A chunk that leaves the buffer without a NUL makes
    the call raise: the unpacking of the split raises [ValueError], the
    loop stops there and the call ends with an exception.  When the stream
    ends, what is left in the buffer is dropped: one fragment was parsed
    per nonempty chunk, the body is these fragments, each followed by NUL,
    followed by the buffer, and fragments still complete in the buffer were
    never handed to [json.loads]. *)
Theorem C10_one_split_per_chunk :
  (forall chunk output buffer piece before after,
      chunk <> [] -> decode chunk = Ok piece ->
      buffer ++ piece = before ++ 0 :: after -> 0 ∉ before ->
      exists r,
        on_chunk chunk output buffer = ([Loads before], r)
        /\ forall output' buffer', r = Ok (output', buffer') -> buffer' = after)
  /\ (forall s pre chunk rest tr output buffer piece,
         for_each_chunk (stream_of pre) [] [] = (Eof, (tr, Ok (output, buffer))) ->
         chunk <> [] -> decode chunk = Ok piece -> 0 ∉ buffer ++ piece ->
         for_each_chunk (foldr Chunk (Chunk chunk rest) pre) [] []
         = (rest, (tr, Raise ValueError))
         /\ exists tr' e,
              _process_response
                {| status := s; content := foldr Chunk (Chunk chunk rest) pre |}
              = (tr', Raise e)
              /\ loaded tr' = loaded tr)
  /\ (forall s chunks unread tr output buffer,
         for_each_chunk (stream_of chunks) [] [] = (unread, (tr, Ok (output, buffer))) ->
         _process_response (response_of s chunks) = (tr, Ok output)
         /\ length (loaded tr) = length (filter (fun chunk => chunk <> []) chunks)
         /\ decode (concat chunks)
            = Ok (foldr (fun data rest => data ++ 0 :: rest) buffer (loaded tr))).
Proof.
  split; [|split].
  - intros chunk output buffer piece before after Hne Hdec Hbuf Hnot.
    eexists. split.
    + apply (on_chunk_fragment _ _ _ piece before after); [done..|].
      by apply cut_Some.
    + intros output' buffer' H.
      destruct (data ← json_loads before; item ← getitem data (str_of "text");
                strip_method item) as [t|e]; simpl in H; [|done].
      by injection H as _ <-.
  - intros s pre chunk rest tr output buffer piece Hpre Hne Hdec Hnot.
    assert (Hloop : for_each_chunk (foldr Chunk (Chunk chunk rest) pre) [] []
                    = (rest, (tr, Raise ValueError))).
    { rewrite (for_each_chunk_prefix _ _ _ _ _ _ _ Hpre). simpl.
      rewrite (on_chunk_no_nul _ _ _ piece) by (try apply cut_None; done).
      by rewrite app_nil_r. }
    split; [done|].
    rewrite (process_response_caught _ rest tr ValueError) by done.
    destruct (text rest) as [t|e]; eexists _, _; (split; [done|]); [|done].
    rewrite loaded_app. simpl. by rewrite app_nil_r.
  - intros s chunks unread tr output buffer Hrun.
    split; [by apply (process_response_returns _ unread _ _ buffer)|].
    apply for_each_chunk_accounting in Hrun as (_ & Hlen & pieces & Hdec & Htext).
    split; [done|]. simpl in Htext. rewrite <- Htext. by apply decode_concat.
Qed.

Lemma C10_one_split_per_chunk_witness :
  (exists r,
      on_chunk (fragment "{'text':'A'}" ++ fragment "{'text':'B'}") [] []
      = ([Loads (json_text "{'text':'A'}")], r)
      /\ forall output' buffer',
           r = Ok (output', buffer') -> buffer' = json_text "{'text':'B'}" ++ [0])
  /\ (exists tr' e,
         _process_response
           {| status := 200;
              content := foldr Chunk (Chunk (wire "{'te") Eof) [fragment "{'text':'A'}"] |}
         = (tr', Raise e)
         /\ loaded tr' = loaded [Loads (json_text "{'text':'A'}")])
  /\ _process_response
       (response_of 200 [fragment "{'text':'A'}" ++ fragment "{'text':'B'}"])
     = ([Loads (json_text "{'text':'A'}")], Ok (str_of "A")).
Proof.
  destruct C10_one_split_per_chunk as (Hfragment & Hraise & Hend).
  split; [|split].
  - apply (Hfragment _ [] [] (json_text "{'text':'A'}" ++ 0 :: json_text "{'text':'B'}" ++ [0])
                     (json_text "{'text':'A'}") (json_text "{'text':'B'}" ++ [0]));
      [discriminate | reflexivity | reflexivity |].
    apply (bool_decide_unpack _). vm_compute. exact I.
  - apply (Hraise 200%Z [fragment "{'text':'A'}"] (wire "{'te") Eof
                  [Loads (json_text "{'text':'A'}")] (str_of "A") [] (json_text "{'te"));
      [vm_compute; reflexivity | discriminate | reflexivity |].
    apply (bool_decide_unpack _). vm_compute. exact I.
  - apply (Hend 200%Z [fragment "{'text':'A'}" ++ fragment "{'text':'B'}"] Eof
                [Loads (json_text "{'text':'A'}")] (str_of "A")
                (json_text "{'text':'B'}" ++ [0])).
    vm_compute. reflexivity.
Defined.

(** ** What the library calls raise *)

Lemma fmap_cons_Raise (c : N) (res : result str) e :
  cons c <$> res = Raise e -> res = Raise e.
Proof. destruct res as [x|e']; simpl; [done|]. by intros [= ->]. Qed.

Ltac decode_raise IH :=
  match goal with
  | H : cons _ <$> decode ?t = Raise _ |- _ =>
    apply fmap_cons_Raise in H; apply IH in H; [done | simpl in *; lia]
  | H : Raise _ = Raise _ |- _ => by injection H as <-
  end.

Lemma decode_Raise_le n bs e :
  (length bs <= n)%nat -> decode bs = Raise e -> e = UnicodeDecodeError.
Proof.
  revert bs. induction n as [|n IH]; intros bs Hn H.
  - destruct bs; [done | simpl in Hn; lia].
  - destruct bs as [|b0 t0]; [done|]. cbn [decode] in H. simpl in Hn.
    destruct (Byte.to_N b0 <? 128); [decode_raise IH|].
    destruct (Byte.to_N b0 <? 194); [decode_raise IH|].
    destruct (Byte.to_N b0 <? 224).
    { destruct t0 as [|b1 t1]; [decode_raise IH|].
      destruct (is_cont _); decode_raise IH. }
    destruct (Byte.to_N b0 <? 240).
    { destruct t0 as [|b1 [|b2 t2]]; try decode_raise IH.
      destruct (_ && _); decode_raise IH. }
    destruct (Byte.to_N b0 <? 245); [|decode_raise IH].
    destruct t0 as [|b1 [|b2 [|b3 t3]]]; try decode_raise IH.
    destruct (_ && _); decode_raise IH.
Qed.

Lemma decode_Raise bs e : decode bs = Raise e -> e = UnicodeDecodeError.
Proof. by apply (decode_Raise_le (length bs)). Qed.

Lemma json_loads_Raise s e : json_loads s = Raise e -> e = JSONDecodeError.
Proof.
  intros H. pose proof (json_loads_fuel s) as Hfuel.
  unfold json_loads in H, Hfuel.
  destruct s as [|c s'].
  - destruct (scan_once _ _) as [[v r]| |]; [destruct (skip_ws r)| |]; congruence.
  - repeat case_match; congruence.
Qed.

Lemma read_stream_of chunks : read (stream_of chunks) = Ok (concat chunks).
Proof. induction chunks as [|chunk chunks IH]; simpl; [done | by rewrite IH]. Qed.

(** ** Counting the delimiters of a body *)

Lemma eqb_NUL b : Byte.eqb b NUL = (Byte.to_N b =? 0).
Proof. by destruct b. Qed.

Lemma count_NUL_cons_ne (b : byte) bs :
  Byte.to_N b <> 0 -> count_NUL (b :: bs) = count_NUL bs.
Proof.
  intros H. simpl. rewrite eqb_NUL.
  by destruct (N.eqb_spec (Byte.to_N b) 0).
Qed.

Lemma count_zero_cons_ne (c : N) s : c <> 0 -> count_zero (c :: s) = count_zero s.
Proof. intros H. simpl. by destruct (N.eqb_spec c 0). Qed.

Lemma count_zero_app s s' : count_zero (s ++ s') = (count_zero s + count_zero s')%nat.
Proof.
  induction s as [|c s IH]; simpl; [done|]. rewrite IH. by destruct (c =? 0).
Qed.

Ltac zero_tail IH :=
  match goal with
  | H : cons ?c <$> decode ?t = Ok _ |- _ =>
    apply fmap_cons_Ok in H as (? & H & ->);
    apply IH in H; [|simpl in *; lia];
    rewrite count_zero_cons_ne by lia;
    rewrite !count_NUL_cons_ne by lia;
    exact H
  end.

(** UTF-8 keeps the delimiters: the NUL characters of a decoded text are
    the NUL bytes of the body. *)
Lemma decode_NUL_le n bs t :
  (length bs <= n)%nat -> decode bs = Ok t -> count_zero t = count_NUL bs.
Proof.
  revert bs t. induction n as [|n IH]; intros bs t Hn H.
  - destruct bs; [by injection H as <- | simpl in Hn; lia].
  - destruct bs as [|b0 t0]; [by injection H as <-|].
    cbn [decode] in H. simpl in Hn.
    destruct (N.ltb_spec (Byte.to_N b0) 128) as [Hlt1|Hge1].
    { apply fmap_cons_Ok in H as (t' & H & ->).
      apply IH in H; [|lia]. simpl. by rewrite eqb_NUL, H. }
    destruct (N.ltb_spec (Byte.to_N b0) 194) as [Hlt2|Hge2]; [done|].
    destruct (N.ltb_spec (Byte.to_N b0) 224) as [Hlt3|Hge3].
    { destruct t0 as [|b1 t1]; [done|].
      destruct (is_cont (Byte.to_N b1)) eqn:Hc1; [|done].
      unfold is_cont in Hc1. apply andb_true_iff in Hc1 as [Hc1l _].
      apply N.leb_le in Hc1l. zero_tail IH. }
    destruct (N.ltb_spec (Byte.to_N b0) 240) as [Hlt4|Hge4].
    { destruct t0 as [|b1 [|b2 t2]]; try done.
      destruct (second3 _ _ && is_cont (Byte.to_N b2)) eqn:Hc12; [|done].
      apply andb_true_iff in Hc12 as [Hc1 Hc2].
      unfold is_cont in Hc2. apply andb_true_iff in Hc2 as [Hc2l _].
      apply N.leb_le in Hc2l.
      assert (128 <= Byte.to_N b1 /\
              (Byte.to_N b0 = 224 -> 160 <= Byte.to_N b1)) as [Hc1a Hc1b].
      { unfold second3, in_range, is_cont in Hc1.
        destruct (N.eqb_spec (Byte.to_N b0) 224);
          [|destruct (N.eqb_spec (Byte.to_N b0) 237)];
          apply andb_true_iff in Hc1 as [Hc1l _]; apply N.leb_le in Hc1l; lia. }
      zero_tail IH. }
    destruct (N.ltb_spec (Byte.to_N b0) 245) as [Hlt5|Hge5]; [|done].
    destruct t0 as [|b1 [|b2 [|b3 t3]]]; try done.
    destruct (second4 _ _ && is_cont (Byte.to_N b2) && is_cont (Byte.to_N b3))
      eqn:Hc123; [|done].
    apply andb_true_iff in Hc123 as [Hc12 Hc3].
    apply andb_true_iff in Hc12 as [Hc1 Hc2].
    unfold is_cont in Hc2, Hc3.
    apply andb_true_iff in Hc2 as [Hc2l _]. apply andb_true_iff in Hc3 as [Hc3l _].
    apply N.leb_le in Hc2l. apply N.leb_le in Hc3l.
    assert (128 <= Byte.to_N b1 /\
            (Byte.to_N b0 = 240 -> 144 <= Byte.to_N b1)) as [Hc1a Hc1b].
    { unfold second4, in_range, is_cont in Hc1.
      destruct (N.eqb_spec (Byte.to_N b0) 240);
        [|destruct (N.eqb_spec (Byte.to_N b0) 244)];
        apply andb_true_iff in Hc1 as [Hc1l _]; apply N.leb_le in Hc1l; lia. }
    zero_tail IH.
Qed.

Lemma decode_NUL bs t : decode bs = Ok t -> count_zero t = count_NUL bs.
Proof. by apply (decode_NUL_le (length bs)). Qed.

Lemma count_zero_fragments (buffer : str) (fragments : list str) :
  (length fragments
   <= count_zero (foldr (fun data rest => data ++ 0%N :: rest) buffer fragments))%nat.
Proof.
  induction fragments as [|data fragments IH]; simpl; [lia|].
  rewrite count_zero_app. simpl. lia.
Qed.

(** A call that returns has found one NUL in the body for each chunk that
    is not empty. *)
Lemma returns_needs_delimiters s chunks tr output :
  _process_response (response_of s chunks) = (tr, Ok output) ->
  (nonempty_chunks chunks <= count_NUL (concat chunks))%nat.
Proof.
  intros H.
  destruct (for_each_chunk (stream_of chunks) [] []) as [unread [tr0 [[o b]|e]]] eqn:Hrun.
  - apply for_each_chunk_accounting in Hrun as (_ & Hlen & pieces & Hdec & Htext).
    apply decode_concat, decode_NUL in Hdec. simpl in Htext.
    unfold nonempty_chunks. rewrite <- Hlen, <- Hdec, Htext.
    apply count_zero_fragments.
  - destruct (is_Exception e) eqn:He.
    + rewrite (process_response_caught (response_of s chunks) _ _ _ Hrun He) in H.
      by destruct (text unread).
    + by rewrite (process_response_uncaught (response_of s chunks) _ _ _ Hrun He) in H.
Qed.

Lemma chunked_length n chunks :
  chunked n (stream_of chunks) = true ->
  (length (concat chunks) <= n * nonempty_chunks chunks)%nat.
Proof.
  unfold nonempty_chunks.
  induction chunks as [|chunk chunks IH]; simpl; [lia|].
  intros H. apply andb_true_iff in H as [H Hrest].
  apply andb_true_iff in H as [Hne Hle].
  apply Nat.leb_le in Hle. apply IH in Hrest.
  rewrite filter_cons_True by (intros ->; simpl in Hne; done).
  rewrite length_app. simpl. lia.
Qed.

(** ** Further properties: whole fragments and empty chunks *)

(** The loop over chunks that are whole fragments, from any value of
    [output] and an empty [buffer]: it ends with an empty [buffer]. *)
Lemma for_each_chunk_whole_fragments chunks fragments texts output :
  Forall2 (fun chunk data => decode chunk = Ok (data ++ [0]) /\ 0 ∉ data)
          chunks fragments ->
  Forall2 (fun data t => exists d, json_loads data = Ok (PyDict d)
                                   /\ d !! str_of "text" = Some (PyStr t))
          fragments texts ->
  for_each_chunk (stream_of chunks) output []
  = (Eof, (Loads <$> fragments,
           Ok (default output (strip <$> last texts), []))).
Proof.
  intros Hchunks. revert texts output.
  induction Hchunks as [|chunk data chunks fragments [Hdec Hnot] _ IH];
    intros texts output Htexts.
  - by inversion Htexts.
  - inversion Htexts as [|? t ? texts' (d & Hload & Htext) Hrest]; subst. simpl.
    assert (Hne : chunk <> []).
    { intros ->. simpl in Hdec. injection Hdec as Hdec. by destruct data. }
    rewrite (on_chunk_fragment _ _ _ (data ++ [0]) data []);
      [|done|done|by apply cut_app].
    rewrite Hload. simpl. rewrite Htext. simpl.
    rewrite (IH _ _ Hrest). rewrite last_cons.
    by destruct (last texts').
Qed.

(** X2.  When every chunk is one whole fragment (it decodes to a text
    without NUL followed by one NUL) and every fragment parses to a dict
    whose [text] is a string, the call returns the stripped text of the
    last fragment, having handed every fragment to [json.loads] in order;
    with no chunk at all it returns the empty string. *)
Theorem X2_one_fragment_per_chunk s chunks fragments texts :
  Forall2 (fun chunk data => decode chunk = Ok (data ++ [0]) /\ 0 ∉ data)
          chunks fragments ->
  Forall2 (fun data t => exists d, json_loads data = Ok (PyDict d)
                                   /\ d !! str_of "text" = Some (PyStr t))
          fragments texts ->
  _process_response (response_of s chunks)
  = (Loads <$> fragments, Ok (default [] (strip <$> last texts))).
Proof.
  intros Hchunks Htexts.
  apply (process_response_returns _ Eof _ _ []). simpl.
  by apply for_each_chunk_whole_fragments.
Qed.

Lemma X2_one_fragment_per_chunk_witness :
  _process_response
    (response_of 200 [fragment "{'text':' A '}"; fragment "{'text':'B', 'n':1}"])
  = (Loads <$> [json_text "{'text':' A '}"; json_text "{'text':'B', 'n':1}"],
     Ok (default [] (strip <$> last [str_of " A "; str_of "B"]))).
Proof.
  apply X2_one_fragment_per_chunk.
  - repeat constructor; try reflexivity;
      apply (bool_decide_unpack _); vm_compute; exact I.
  - repeat constructor; eexists; split; vm_compute; reflexivity.
Defined.

(** Empty chunks change neither what the loop does nor what is left to
    read. *)
Lemma for_each_chunk_skips_empty chunks output buffer :
  exists unread unread' body,
    for_each_chunk (stream_of chunks) output buffer = (unread, body)
    /\ for_each_chunk (stream_of (filter (fun chunk => chunk <> []) chunks))
                      output buffer = (unread', body)
    /\ read unread' = read unread.
Proof.
  revert output buffer. induction chunks as [|chunk chunks IH]; intros output buffer.
  - by exists Eof, Eof, (mret (output, buffer)).
  - destruct (decide (chunk = [])) as [->|Hne].
    + rewrite filter_cons_False by (intros H; by apply H). simpl.
      destruct (IH output buffer) as (u & u' & [tr r] & H1 & H2 & Hread).
      exists u, u', (tr, r). by rewrite H1, H2.
    + rewrite filter_cons_True by done. simpl.
      destruct (on_chunk chunk output buffer) as [tr1 [[o1 b1]|e]].
      * destruct (IH o1 b1) as (u & u' & [tr r] & H1 & H2 & Hread).
        exists u, u', (tr1 ++ tr, r). by rewrite H1, H2.
      * eexists _, _, _. split; [done|]. split; [done|].
        rewrite !read_stream_of. f_equal.
        clear. induction chunks as [|c chunks IH]; [done|].
        destruct (decide (c = [])) as [->|Hne].
        -- by rewrite filter_cons_False by (intros H; by apply H).
        -- rewrite filter_cons_True by done. simpl. by rewrite IH.
Qed.

(** X3.  Empty chunks are skipped: a body delivered with empty chunks
    among the others gives the same events and the same outcome as the body
    delivered without them. *)
Theorem X3_empty_chunks_are_skipped s chunks :
  _process_response (response_of s (filter (fun chunk => chunk <> []) chunks))
  = _process_response (response_of s chunks).
Proof.
  destruct (for_each_chunk_skips_empty chunks [] [])
    as (u & u' & body & H1 & H2 & Hread).
  unfold _process_response, response_of, text. simpl.
  by rewrite H1, H2, Hread.
Qed.

(** ** Further properties: failures *)

(** X4.  A fragment that is taken from a chunk, after chunks that were
    processed without error, and that [json.loads] rejects or that does not
    parse to a dict whose [text] is a string, makes the call fail, and
    nothing after it is parsed.  When the handler's read of the rest of
    the response succeeds, the one line it prints carries the exception
    that reaches the caller and the text of the part of the body that was
    not yet read, so not the fragment that failed; when that read raises,
    nothing is printed and its exception reaches the caller. *)
Theorem X4_unusable_fragment
    s pre chunk rest tr output buffer piece before after e :
  for_each_chunk (stream_of pre) [] [] = (Eof, (tr, Ok (output, buffer))) ->
  chunk <> [] -> decode chunk = Ok piece ->
  cut 0 (buffer ++ piece) = Some (before, after) ->
  (data ← json_loads before; item ← getitem data (str_of "text"); strip_method item)
  = Raise e ->
  let response :=
    {| status := s; content := foldr Chunk (Chunk chunk rest) pre |} in
  match text rest with
  | Ok response_text =>
    exists e',
      _process_response response
      = (tr ++ [Loads before; Print_exception e' response_text], Raise e')
  | Raise e' =>
    _process_response response = (tr ++ [Loads before], Raise e')
  end.
Proof.
  intros Hpre Hne Hdec Hcut Hbad response.
  assert (Hloop : for_each_chunk (content response) [] []
                  = (rest, (tr ++ [Loads before], Raise e))).
  { unfold response. cbn [content].
    rewrite (for_each_chunk_prefix _ _ _ _ _ _ _ Hpre). simpl.
    rewrite (on_chunk_fragment _ _ _ piece before after) by done.
    by rewrite Hbad. }
  assert (He : is_Exception e = true).
  { destruct (json_loads before) as [data|e0] eqn:Hload; simpl in Hbad.
    - destruct data; simpl in Hbad; try by injection Hbad as <-.
      destruct (_ !! _) as [item|]; simpl in Hbad; [|by injection Hbad as <-].
      destruct item; simpl in Hbad; try done; by injection Hbad as <-.
    - injection Hbad as <-. by apply json_loads_Raise in Hload as ->. }
  rewrite (process_response_caught _ _ _ _ Hloop He).
  destruct (text rest) as [response_text|e']; [|done].
  exists e. by rewrite <- app_assoc.
Qed.

Lemma X4_unusable_fragment_witness :
  exists e',
    _process_response
      {| status := 200;
         content := foldr Chunk (Chunk (fragment "{'text':null}")
                                       (Chunk (fragment "{'text':'B'}") Eof))
                          [fragment "{'text':'A'}"] |}
    = ([Loads (json_text "{'text':'A'}")]
         ++ [Loads (json_text "{'text':null}");
             Print_exception e' (json_text "{'text':'B'}" ++ [0])],
       Raise e').
Proof.
  apply (X4_unusable_fragment 200%Z [fragment "{'text':'A'}"]
           (fragment "{'text':null}") (Chunk (fragment "{'text':'B'}") Eof)
           [Loads (json_text "{'text':'A'}")] (str_of "A") []
           (json_text "{'text':null}" ++ [0]) (json_text "{'text':null}") []
           AttributeError);
    try reflexivity; discriminate.
Defined.

(** X5.  A failure of the transport while the body is read, after chunks
    that were processed without error, ends the call with the exception of
    the transport; the handler prints nothing, because its own read of the
    response text raises the same exception. *)
Theorem X5_read_failure_propagates s pre e tr output buffer :
  for_each_chunk (stream_of pre) [] [] = (Eof, (tr, Ok (output, buffer))) ->
  _process_response {| status := s; content := foldr Chunk (Broken e) pre |}
  = (tr, Raise e)
  /\ logged tr = [].
Proof.
  intros Hpre.
  assert (Hloop : for_each_chunk (foldr Chunk (Broken e) pre) [] []
                  = (Broken e, (tr, Raise e))).
  { rewrite (for_each_chunk_prefix _ _ _ _ _ _ _ Hpre). simpl.
    by rewrite app_nil_r. }
  split; [|by apply for_each_chunk_logged in Hpre].
  destruct (is_Exception e) eqn:He.
  - by rewrite (process_response_caught _ (Broken e) tr e) by done.
  - by rewrite (process_response_uncaught _ (Broken e) tr e) by done.
Qed.

Lemma X5_read_failure_propagates_witness :
  _process_response
    {| status := 200;
       content := foldr Chunk (Broken (ClientError 1)) [fragment "{'text':'A'}"] |}
  = ([Loads (json_text "{'text':'A'}")], Raise (ClientError 1))
  /\ logged [Loads (json_text "{'text':'A'}")] = [].
Proof.
  apply (X5_read_failure_propagates 200%Z [fragment "{'text':'A'}"] (ClientError 1)
           [Loads (json_text "{'text':'A'}")] (str_of "A") []).
  vm_compute. reflexivity.
Defined.

(** X6.  Each chunk is decoded on its own.  A chunk that is not valid
    UTF-8 by itself, for instance because a character of several bytes is
    cut by the chunk boundary, stops the loop with [UnicodeDecodeError] and
    the call ends with an exception, also when the body as a whole is valid
    UTF-8; no fragment is parsed from that chunk on. *)
Theorem X6_chunk_decoded_on_its_own s pre chunk rest tr output buffer e :
  for_each_chunk (stream_of pre) [] [] = (Eof, (tr, Ok (output, buffer))) ->
  decode chunk = Raise e ->
  for_each_chunk (foldr Chunk (Chunk chunk rest) pre) [] []
  = (rest, (tr, Raise UnicodeDecodeError))
  /\ exists tr' e',
       _process_response
         {| status := s; content := foldr Chunk (Chunk chunk rest) pre |}
       = (tr', Raise e')
       /\ loaded tr' = loaded tr.
Proof.
  intros Hpre Hdec.
  assert (e = UnicodeDecodeError) as -> by by apply decode_Raise in Hdec.
  assert (Hne : chunk <> []) by by intros ->.
  assert (Hloop : for_each_chunk (foldr Chunk (Chunk chunk rest) pre) [] []
                  = (rest, (tr, Raise UnicodeDecodeError))).
  { rewrite (for_each_chunk_prefix _ _ _ _ _ _ _ Hpre). simpl.
    rewrite (on_chunk_undecodable _ _ _ UnicodeDecodeError) by done.
    by rewrite app_nil_r. }
  split; [done|].
  rewrite (process_response_caught _ rest tr UnicodeDecodeError) by done.
  destruct (text rest) as [t|e]; eexists _, _; (split; [done|]); [|done].
  rewrite loaded_app. simpl. by rewrite app_nil_r.
Qed.

Lemma X6_chunk_decoded_on_its_own_witness :
  decode (wire "{'text':'" ++ [xe2; x82] ++ [xac] ++ wire "'}" ++ [NUL])
  = Ok (json_text "{'text':'" ++ [0x20AC] ++ json_text "'}" ++ [0])
  /\ exists tr' e',
       _process_response
         {| status := 200;
            content := foldr Chunk
                         (Chunk (wire "{'text':'" ++ [xe2; x82])
                                (Chunk ([xac] ++ wire "'}" ++ [NUL]) Eof)) [] |}
       = (tr', Raise e')
       /\ loaded tr' = loaded [].
Proof.
  split; [reflexivity|].
  apply (X6_chunk_decoded_on_its_own 200%Z [] _ _ [] [] [] UnicodeDecodeError);
    reflexivity.
Defined.

(** ** Further properties: chunks and delimiters *)

(** X7.  A body that arrives in more nonempty chunks than it has NUL bytes
    always makes the call fail, whatever the fragments are. *)
Theorem X7_more_chunks_than_delimiters s chunks :
  (count_NUL (concat chunks) < nonempty_chunks chunks)%nat ->
  exists tr e, _process_response (response_of s chunks) = (tr, Raise e).
Proof.
  intros Hlt.
  destruct (_process_response (response_of s chunks)) as [tr [output|e]] eqn:H.
  - apply returns_needs_delimiters in H. lia.
  - by exists tr, e.
Qed.

Lemma X7_more_chunks_than_delimiters_witness :
  exists tr e,
    _process_response
      (response_of 200 [wire "{'text':'good"; wire " answer'}" ++ [NUL]])
    = (tr, Raise e).
Proof.
  apply X7_more_chunks_than_delimiters. vm_compute. lia.
Defined.

(** X8.  With chunks of at most [n] bytes, as [iter_chunked(n)] yields
    them, a body of more than [n] bytes per NUL it holds always makes the
    call fail.  So a reply of a single fragment cannot be returned once it
    is longer than the chunk size of 1024 bytes. *)
Theorem X8_body_longer_than_its_chunks s n chunks :
  chunked n (stream_of chunks) = true ->
  (n * count_NUL (concat chunks) < length (concat chunks))%nat ->
  exists tr e, _process_response (response_of s chunks) = (tr, Raise e).
Proof.
  intros Hchunked Hlong. apply chunked_length in Hchunked.
  destruct (_process_response (response_of s chunks)) as [tr [output|e]] eqn:H.
  - apply returns_needs_delimiters in H. nia.
  - by exists tr, e.
Qed.

Lemma X8_body_longer_than_its_chunks_witness :
  exists tr e,
    _process_response
      (response_of 200
         [wire "{'text':'" ++ repeat x41 1015;
          repeat x41 3 ++ wire "'}" ++ [NUL]])
    = (tr, Raise e).
Proof.
  apply (X8_body_longer_than_its_chunks 200%Z 1024%nat).
  - vm_compute. reflexivity.
  - vm_compute. lia.
Defined.

(** ** Further properties: the returned text *)

(** X9.  The text that a call returns neither starts nor ends with a
    whitespace character, and it is empty when no fragment was parsed. *)
Theorem X9_returned_text_has_no_outer_whitespace response tr output :
  _process_response response = (tr, Ok output) ->
  (forall c, head output = Some c -> isspace c = false)
  /\ (forall c, last output = Some c -> isspace c = false)
  /\ (loaded tr = [] -> output = []).
Proof.
  intros H.
  destruct (for_each_chunk (content response) [] []) as [unread [tr0 [[o b]|e]]] eqn:Hrun.
  - rewrite (process_response_returns _ _ _ _ _ Hrun) in H.
    injection H as <- <-. apply for_each_chunk_last in Hrun.
    destruct (last (loaded tr0)) as [data|] eqn:Hlast.
    + destruct Hrun as (d & t & _ & _ & ->).
      destruct (strip_spec t) as (l & r & _ & _ & _ & Hhead & Hlast').
      repeat split; [done..|]. intros Hnone. by rewrite Hnone in Hlast.
    + by subst o.
  - destruct (is_Exception e) eqn:He.
    + rewrite (process_response_caught _ _ _ _ Hrun He) in H.
      by destruct (text unread).
    + by rewrite (process_response_uncaught _ _ _ _ Hrun He) in H.
Qed.

Lemma X9_returned_text_has_no_outer_whitespace_witness :
  ((forall c, head (str_of "hello") = Some c -> isspace c = false)
   /\ (forall c, last (str_of "hello") = Some c -> isspace c = false)
   /\ (loaded [Loads (json_text "{'text':'  hello  '}")] = [] -> str_of "hello" = []))
  /\ ((forall c, head (@nil N) = Some c -> isspace c = false)
      /\ (forall c, last (@nil N) = Some c -> isspace c = false)
      /\ (loaded [] = [] -> @nil N = [])).
Proof.
  split.
  - apply (X9_returned_text_has_no_outer_whitespace
             (response_of 200 [fragment "{'text':'  hello  '}"])
             [Loads (json_text "{'text':'  hello  '}")]).
    vm_compute. reflexivity.
  - apply (X9_returned_text_has_no_outer_whitespace (response_of 200 []) []).
    reflexivity.
Defined.
